(** * calculate_E2: second-order perturbation energies between localized orbitals

    A shallow embedding of [calculate_E2.py].  The script has two numerical
    stages:

    - [loadMatrices] re-expresses the Fock and density matrices in the CLPO
      basis: after the four text files are read it computes
      [inv(lho_2_nao) @ inv(cplo_2_lho)] and applies it as a congruence;
    - [doE2Analysis] scans all ordered orbital pairs and collects the
      donor/acceptor interactions that pass the charge-transfer threshold.

    The scan is modelled on IEEE binary64 values (numpy's float64), using the
    executable specification of the Standard Library ([SpecFloat]) so that
    comparisons, NaN and division by zero behave as they do in the script.
    The basis change is given twice: over an arbitrary field with MathComp
    matrices, which is the exact-arithmetic reading of the linear algebra,
    and on float64 arrays ([Binary64.loadMatrices]) with numpy's inversion
    and matrix product as parameters, which is what the script runs. *)

From HB Require Import structures.
From mathcomp Require Import boot algebra.
From Stdlib Require Import ZArith Lia String Ascii DecimalString DecimalNat.
From Stdlib Require Import Floats.

Set Implicit Arguments.
Unset Strict Implicit.
Unset Printing Implicit Defensive.

(** ** Binary64 numbers *)

Definition float64 := spec_float.

Definition fsub : float64 -> float64 -> float64 := SFsub prec emax.
Definition fmul : float64 -> float64 -> float64 := SFmul prec emax.
Definition fdiv : float64 -> float64 -> float64 := SFdiv prec emax.
(** Python's [x < y], [x <= y], [x == y]; [x > y] is [flt y x]. *)
Definition flt : float64 -> float64 -> bool := SFltb.
Definition fle : float64 -> float64 -> bool := SFleb.
Definition feq : float64 -> float64 -> bool := SFeqb.
Definition fgt (x y : float64) : bool := flt y x.

Arguments fsub : simpl never.
Arguments fmul : simpl never.
Arguments fdiv : simpl never.
Arguments flt : simpl never.
Arguments fle : simpl never.
Arguments feq : simpl never.
Arguments fgt : simpl never.

Definition is_nan (x : float64) : bool :=
  if x is S754_nan then true else false.

Definition is_finite (x : float64) : bool :=
  match x with
  | S754_zero _ | S754_finite _ _ _ => true
  | _ => false
  end.

(** The binary64 value of an integer (exact for |z| < 2^53). *)
Definition of_Z (z : Z) : float64 := binary_normalize prec emax z 0 false.

(** The binary64 value of the decimal literal [n/d]: the correctly rounded
    quotient of two exactly represented integers, which is how Python reads
    a literal such as [627.509]. *)
Definition literal (n : Z) (d : positive) : float64 :=
  fdiv (of_Z n) (of_Z (Zpos d)).

Definition f_one : float64 := Eval vm_compute in literal 1 1.
Definition f_two : float64 := Eval vm_compute in literal 2 1.
Definition f_minus_one : float64 := Eval vm_compute in literal (-1) 1.
(** [627.509], the Hartree to kcal/mol factor of line 115. *)
Definition kcal_per_hartree : float64 := Eval vm_compute in literal 627509 1000.
(** The defaults of [qCT_threshold] and [E_threshold]. *)
Definition default_qCT_threshold : float64 := Eval vm_compute in literal 1 100.
Definition default_E_threshold : float64 := Eval vm_compute in literal 1 10.

(** ** Library functions: reference instances

    [round(x, ndigits)] and [x ** 2] are evaluated by numpy and the C
    library, not by the script.  The scan below takes them as parameters;
    the two functions here are the instances used to run it on examples.
    numpy rounds a float64 to [ndigits] decimals as
    [rint(x * 10**ndigits) / 10**ndigits]. *)

Definition rint (x : float64) : float64 :=
  match x with
  | S754_finite s m e =>
      if (0 <=? e)%Z then x
      else
        let d := (2 ^ (- e))%Z in
        let q := (Zpos m / d)%Z in
        let r := (Zpos m mod d)%Z in
        let k := match (2 * r ?= d)%Z with
                 | Lt => q
                 | Gt => (q + 1)%Z
                 | Eq => if Z.even q then q else (q + 1)%Z
                 end in
        binary_normalize prec emax (cond_Zopp s k) 0 s
  | _ => x
  end.

Definition round_ref (x : float64) (ndigits : Z) : float64 :=
  let p := of_Z (10 ^ ndigits)%Z in
  fdiv (rint (fmul x p)) p.

Definition pow_ref (x : float64) (n : Z) : float64 :=
  ssrnat.iter (Z.to_nat n) (fmul x) f_one.

(** ** Arrays, table cells and the error monad *)

(** A two-dimensional numpy array, row by row. *)
Definition ndarray := seq (seq float64).

(** A cell of the result table: a label or a number. *)
Inductive cell := Str of string | Num of float64.

(** Python's [s[i]] for [0 <= i]: [None] stands for [IndexError]. *)
Fixpoint item (T : Type) (s : seq T) (i : nat) : option T :=
  match s, i with
  | [::], _ => None
  | x :: _, 0 => Some x
  | _ :: s', i'.+1 => item s' i'
  end.

(** numpy's [M[i,j]]. *)
Definition getitem (M : ndarray) (i j : nat) : option float64 :=
  obind (fun row => item row j) (item M i).

Notation "x <~ e ;; k" := (obind (fun x => k) e)
  (at level 60, e at next level, right associativity, only parsing).

(** [for i in r: st = body i st], stopping at the first exception. *)
Fixpoint for_in (S : Type) (r : seq nat) (body : nat -> S -> option S)
    (st : S) : option S :=
  match r with
  | [::] => Some st
  | i :: r' => st' <~ body i st ;; for_in r' body st'
  end.

Definition range (n : nat) : seq nat := iota 0 n.

(** [str(n)] for a natural number. *)
Definition str (n : nat) : string := NilEmpty.string_of_uint (Nat.to_uint n).

(** [name + ' (' + str(i + 1) + ')'] *)
Definition label (name : string) (i : nat) : string :=
  String.append (String.append (String.append name " (") (str i.+1)) ")".

(** ** doE2Analysis *)

(** The local variables of [doE2Analysis] that the loop assigns.  [qCT] and
    [E2] start as the integer [-1]; they are only read after line 115 and
    117 have assigned them. *)
Record locals := Locals {
  ii_Name : string;
  jj_Name : string;
  qCT : float64;
  E2 : float64;
  interaction : seq cell;
  result : seq (seq cell)
}.

Definition lowest_donor_occ : float64 := f_one.
Definition highest_accpt_occ : float64 := f_one.

Definition titles : seq cell :=
  [:: Str "Donor orbital"; Str "Acceptor orbital"; Str "Donor occupancy";
      Str "Acceptor occupancy"; Str "Charge transfer (e)";
      Str "E2 energy (kcal/mol)"].

Section Analysis.

(** [round(x, ndigits)] on a float64 and [x ** n]. *)
Variable round : float64 -> Z -> float64.
Variable pow : float64 -> Z -> float64.

Section Scan.

Variables Fock_matrix D_matrix : ndarray.
Variable orbital_names : option (seq string).
Variable qCT_threshold : float64.

(** Lines 94-122: the body of the inner loop. *)
Definition visit (i j : nat) (st : locals) : option locals :=
  if i == j then Some st
  else
    Eii <~ getitem Fock_matrix i i ;;
    Ejj <~ getitem Fock_matrix j j ;;
    Dii <~ getitem D_matrix i i ;;
    Djj <~ getitem D_matrix j j ;;
    new_names <~ match orbital_names with
                 | Some names =>
                     ni <~ item names i ;;
                     nj <~ item names j ;;
                     Some (ni, nj)
                 | None => Some (ii_Name st, jj_Name st)
                 end ;;
    let: (ii, jj) := new_names in
    let inter :=
      interaction st ++
        [:: Str (label ii i); Str (label jj j);
            Num (round Dii 4); Num (round Djj 4)] in
    if [&& fgt Dii lowest_donor_occ, flt Djj highest_accpt_occ & flt Djj Dii]
    then
      Eij <~ getitem Fock_matrix i j ;;
      let qCT1 := fmul f_two (pow (fdiv Eij (fsub Eii Ejj)) 2) in
      let E2' := fmul (fmul qCT1 (fsub Ejj Eii)) kcal_per_hartree in
      Dij <~ getitem D_matrix i j ;;
      let qCT' := fdiv (fmul Dij Dij) Dii in
      if fgt qCT' qCT_threshold then
        let inter' := inter ++ [:: Num (round qCT' 4); Num (round E2' 2)] in
        Some (Locals ii jj qCT' E2' [::] (rcons (result st) inter'))
      else Some (Locals ii jj qCT' E2' [::] (result st))
    else Some (Locals ii jj (qCT st) (E2 st) [::] (result st)).

(** Lines 92-93: the two loops over [range(len(Fock_matrix))]. *)
Definition scan (st : locals) : option locals :=
  for_in (range (size Fock_matrix))
    (fun i => for_in (range (size Fock_matrix)) (visit i)) st.

End Scan.

(** Lines 78-123.  [E_threshold] is a parameter of the function. *)
Definition doE2Analysis (Fock_matrix D_matrix : ndarray)
    (orbital_names : option (seq string))
    (qCT_threshold E_threshold : float64) : option (seq (seq cell)) :=
  let st0 := Locals "unknown" "unknown" f_minus_one f_minus_one
               [::] [:: titles] in
  omap result (scan Fock_matrix D_matrix orbital_names qCT_threshold st0).

End Analysis.

(** ** loadMatrices

    Lines 55-68 read the four matrices and the orbital names from text
    files; the model starts from the loaded arrays.  Lines 71-76 are matrix
    algebra, modelled over a field [K] (exact arithmetic) with square
    matrices of a common dimension [n].  This reading serves the statements
    that involve no rounding; what the inversion does to a singular
    float64 matrix is the matter of [Binary64.loadMatrices] below. *)

Section BasisChange.

Variable K : fieldType.
Variable n : nat.

(** [numpy.linalg.inv], by its contract: the inverse of the matrix, or
    [LinAlgError] (here [None]) when the matrix is singular. *)
Definition linalg_inv (A : 'M[K]_n) : option 'M[K]_n :=
  if A \in unitmx then Some (invmx A) else None.

Definition loadMatrices (Fock_nao sds_nao cplo_2_lho lho_2_nao : 'M[K]_n)
    (orb_names : n.-tuple string) :
    option ('M[K]_n * 'M[K]_n * n.-tuple string) :=
  inv_lho <~ linalg_inv lho_2_nao ;;
  inv_cplo <~ linalg_inv cplo_2_lho ;;
  let nao_2_cplo := (inv_lho *m inv_cplo)%R in
  let sds_cplo := (nao_2_cplo^T *m sds_nao *m nao_2_cplo)%R in
  let Fock_cplo := (nao_2_cplo^T *m Fock_nao *m nao_2_cplo)%R in
  Some (Fock_cplo, sds_cplo, orb_names).

End BasisChange.

(** ** loadMatrices on float64 arrays

    The same lines 71-76 on numpy's float64 arrays.  [numpy.linalg.inv] and
    [@] are library code: the function takes them as parameters.
    [inv] returns [None] for [LinAlgError], [matmul] for the [ValueError]
    of mismatched shapes; the script catches neither. *)

(** [M.T] of a two-dimensional array. *)
Definition transpose (M : ndarray) : ndarray :=
  [seq [seq nth S754_nan row j | row <- M] | j <- range (size (head [::] M))].

Module Binary64.
Section Basis_change.

Variable inv : ndarray -> option ndarray.
Variable matmul : ndarray -> ndarray -> option ndarray.

Definition loadMatrices (Fock_nao sds_nao cplo_2_lho lho_2_nao : ndarray)
    (orb_names : seq string) : option (ndarray * ndarray * seq string) :=
  inv_lho <~ inv lho_2_nao ;;
  inv_cplo <~ inv cplo_2_lho ;;
  nao_2_cplo <~ matmul inv_lho inv_cplo ;;
  sds_left <~ matmul (transpose nao_2_cplo) sds_nao ;;
  sds_cplo <~ matmul sds_left nao_2_cplo ;;
  Fock_left <~ matmul (transpose nao_2_cplo) Fock_nao ;;
  Fock_cplo <~ matmul Fock_left nao_2_cplo ;;
  Some (Fock_cplo, sds_cplo, orb_names).

End Basis_change.
End Binary64.

(** ** Library functions on arrays: reference instances

    [numpy.linalg.inv] hands the matrix and the identity to LAPACK's
    [dgesv]: an LU factorisation with partial pivoting, which reports an
    error exactly when a pivot it computes is zero, followed by the two
    triangular solves.  The instances below follow the reference LAPACK
    and BLAS routines ([dgetf2], [dtrsm], [dgemm]) operation by operation.
    An optimised BLAS may order the operations of larger matrices
    differently and so differ in the last bits of the values; for two by
    two matrices the factorisation has no such freedom.  The instances
    are used to run [Binary64.loadMatrices] on concrete matrices. *)

Definition fadd : float64 -> float64 -> float64 := SFadd prec emax.
Definition fabs : float64 -> float64 := SFabs.
Definition f_zero : float64 := S754_zero false.

Arguments fadd : simpl never.

(** [x == 0.0] *)
Definition is_zero (x : float64) : bool := feq x f_zero.

(** LAPACK's safe minimum [dlamch('S')]: the smallest normal number. *)
Definition sfmin : float64 := S754_finite false 4503599627370496 (-1074).

(** [numpy.eye(n)] *)
Definition eye (n : nat) : ndarray :=
  [seq [seq if i == j then f_one else f_zero | j <- range n] | i <- range n].

(** BLAS [idamax]: the position of the first entry of largest magnitude. *)
Fixpoint idamax_from (best : nat) (dmax : float64) (k : nat)
    (xs : seq float64) : nat :=
  match xs with
  | [::] => best
  | x :: xs' =>
      if fgt (fabs x) dmax then idamax_from k (fabs x) k.+1 xs'
      else idamax_from best dmax k.+1 xs'
  end.

Definition idamax (xs : seq float64) : nat :=
  if xs is x :: xs' then idamax_from 0 (fabs x) 1 xs' else 0.

(** Exchange of the rows 0 and [p]. *)
Definition swap_rows (T : Type) (d : T) (p : nat) (rows : seq T) : seq T :=
  set_nth d (set_nth d rows 0 (nth d rows p)) p (nth d rows 0).

(** [v - p * l], left alone where [p] is zero, as the reference BLAS
    updates do. *)
Definition update (l p v : float64) : float64 :=
  if is_zero p then v else fsub v (fmul p l).

(** The multiplier of a row, [a / pivot], computed with the reciprocal of
    the pivot unless the pivot is tiny ([dgetf2]). *)
Definition multiplier (pivot a : float64) : float64 :=
  if fle sfmin (fabs pivot) then fmul a (fdiv f_one pivot) else fdiv a pivot.

Definition zip_with (f : float64 -> float64 -> float64)
    (s t : seq float64) : seq float64 :=
  [seq f p.1 p.2 | p <- zip s t].

(** Elimination with partial pivoting on the rows [(a, b)] of the matrix
    augmented with the right-hand side: the [a] parts hold the columns not
    yet eliminated.  [None] when a pivot is exactly zero ([info > 0]). *)
Fixpoint eliminate (n : nat) (rows : seq (seq float64 * seq float64)) :
    option (seq (seq float64 * seq float64)) :=
  match n with
  | 0 => Some [::]
  | n'.+1 =>
      let p := idamax [seq head S754_nan r.1 | r <- rows] in
      let rows' := swap_rows ([::], [::]) p rows in
      let: (u, y) := head ([::], [::]) rows' in
      let pivot := head S754_nan u in
      if is_zero pivot then None
      else
        let reduce (r : seq float64 * seq float64) :=
          let l := multiplier pivot (head S754_nan r.1) in
          (zip_with (update l) (behead u) (behead r.1),
           zip_with (update l) y r.2) in
        rest <~ eliminate n' [seq reduce r | r <- behead rows'] ;;
        Some ((u, y) :: rest)
  end.

(** Back substitution with the upper triangle, bottom row first.  Each
    solved row is kept with its value before the division, which decides
    whether the reference [dtrsm] skips it. *)
Definition solve_row (u y : seq float64)
    (below : seq (seq float64 * seq float64)) : seq float64 * seq float64 :=
  let pre :=
    foldr (fun (ub : float64 * (seq float64 * seq float64)) acc =>
             let: (u_km, (pre_m, x_m)) := ub in
             [seq (if is_zero t.1.1 then t.2 else fsub t.2 (fmul t.1.2 u_km))
             | t <- zip (zip pre_m x_m) acc])
          y (zip (behead u) below) in
  (pre, [seq if is_zero v then v else fdiv v (head S754_nan u) | v <- pre]).

Definition back_substitute (rows : seq (seq float64 * seq float64)) :
    seq (seq float64) :=
  [seq r.2 | r <- foldr (fun r below => solve_row r.1 r.2 below :: below)
                    [::] rows].

(** Reference instance of [numpy.linalg.inv]; a matrix that is not square
    is an error too. *)
Definition linalg_inv_ref (A : ndarray) : option ndarray :=
  if all (fun row => size row == size A) A then
    rows <~ eliminate (size A) (zip A (eye (size A))) ;;
    Some (back_substitute rows)
  else None.

(** Reference instance of [a @ b]. *)
Definition matmul_ref (A B : ndarray) : option ndarray :=
  if all (fun row => size row == size B) A then
    Some [seq [seq foldl (fun acc p => fadd acc (fmul p.1 p.2)) f_zero
                     (zip row col)
              | col <- transpose B]
         | row <- A]
  else None.

(** ** Vocabulary of the statements *)

(** Equality of table cells: the same label, or the same binary64 datum
    (so a NaN cell is the same cell as itself). *)
Definition same_float (x y : float64) : bool :=
  match x, y with
  | S754_zero a, S754_zero b => a == b
  | S754_infinity a, S754_infinity b => a == b
  | S754_nan, S754_nan => true
  | S754_finite a m e, S754_finite b m' e' =>
      [&& a == b, Pos.eqb m m' & Z.eqb e e']
  | _, _ => false
  end.

Definition same_cell (c d : cell) : bool :=
  match c, d with
  | Str s, Str t => String.eqb s t
  | Num x, Num y => same_float x y
  | _, _ => false
  end.

Lemma same_floatP (x y : float64) : reflect (x = y) (same_float x y).
Proof.
case: x => [a|a||a m e]; case: y => [b|b||b m' e'] /=; try by constructor.
- by apply: (iffP eqP) => [->|[]].
- by apply: (iffP eqP) => [->|[]].
- apply: (iffP and3P) => [[/eqP-> /Pos.eqb_spec-> /Z.eqb_spec->]|[-> -> ->]] //.
  by split=> //; [apply/Pos.eqb_spec | apply/Z.eqb_spec].
Qed.

Lemma same_cellP : Equality.axiom same_cell.
Proof.
case=> [s|x] [t|y] /=; try by constructor.
- by apply: (iffP (String.eqb_spec s t)) => [->|[]].
- by apply: (iffP (same_floatP x y)) => [->|[]].
Qed.

HB.instance Definition _ := hasDecEq.Build cell same_cellP.

(** The data model of the specification: [n] orbitals, [n] by [n] matrices
    and, when labels are given, [n] of them. *)
Definition square (n : nat) (M : ndarray) : bool :=
  (size M == n) && all (fun row => size row == n) M.

Definition labelled (n : nat) (names : option (seq string)) : bool :=
  if names is Some l then size l == n else true.

(** [M[i,j]] and [names[i]] as total functions, for use inside the bounds. *)
Definition entry (M : ndarray) (i j : nat) : float64 :=
  odflt S754_nan (getitem M i j).

Definition name_of (names : option (seq string)) (i : nat) : string :=
  if names is Some l then odflt "unknown"%string (item l i)
  else "unknown"%string.

(** The ordered pairs in the order of the double loop, and the strict
    order in which that enumeration runs. *)
Definition row_major (n : nat) : seq (nat * nat) :=
  [seq (i, j) | i <- range n, j <- range n].

Definition row_major_lt (p q : nat * nat) : bool :=
  (p.1 < q.1) || ((p.1 == q.1) && (p.2 < q.2)).

(** A zero or undefined difference of two orbital energies. *)
Definition degenerate (d : float64) : bool :=
  match d with
  | S754_zero _ | S754_nan => true
  | _ => false
  end.

Section Closed_form.

Variable round : float64 -> Z -> float64.
Variable pow : float64 -> Z -> float64.
Variables F D : ndarray.
Variable names : option (seq string).
Variable threshold : float64.

(** The donor/acceptor test of the specification. *)
Definition candidate (i j : nat) : bool :=
  [&& fgt (entry D i i) f_one, flt (entry D j j) f_one
    & flt (entry D j j) (entry D i i)].

(** The unrounded charge transfer [Dij^2 / Dii]. *)
Definition charge_transfer (i j : nat) : float64 :=
  fdiv (fmul (entry D i j) (entry D i j)) (entry D i i).

(** The unrounded energy [2 * (Eij / (Eii - Ejj))^2 * (Ejj - Eii) * 627.509]. *)
Definition energy (i j : nat) : float64 :=
  let Eii := entry F i i in
  let Ejj := entry F j j in
  let Eij := entry F i j in
  let qCT_raw := fmul f_two (pow (fdiv Eij (fsub Eii Ejj)) 2) in
  fmul (fmul qCT_raw (fsub Ejj Eii)) kcal_per_hartree.

Definition passes (p : nat * nat) : bool :=
  [&& p.1 != p.2, candidate p.1 p.2
    & fgt (charge_transfer p.1 p.2) threshold].

Definition record_of (p : nat * nat) : seq cell :=
  [:: Str (label (name_of names p.1) p.1);
      Str (label (name_of names p.2) p.2);
      Num (round (entry D p.1 p.1) 4);
      Num (round (entry D p.2 p.2) 4);
      Num (round (charge_transfer p.1 p.2) 4);
      Num (round (energy p.1 p.2) 2)].

(** Between two iterations no half-built row is pending, and without labels
    both names still read ['unknown']. *)
Definition tidy (st : locals) : Prop :=
  interaction st = [::] /\
  (names = None ->
   ii_Name st = "unknown"%string /\ jj_Name st = "unknown"%string).

End Closed_form.

(** Two runs that agree on failure, and are related when both succeed. *)
Definition orel (S : Type) (R : S -> S -> Prop) (a b : option S) : Prop :=
  match a, b with
  | Some x, Some y => R x y
  | None, None => True
  | _, _ => False
  end.

(** The relation kept between a run at a higher threshold ([st2]) and a
    run at a lower one ([st1]): same names and pending row, and the records
    of the first are a subsequence of the records of the second. *)
Definition fewer_rows (st2 st1 : locals) : Prop :=
  [/\ ii_Name st2 = ii_Name st1, jj_Name st2 = jj_Name st1,
      interaction st2 = interaction st1
    & exists rows2 rows1,
        [/\ result st2 = titles :: rows2, result st1 = titles :: rows1
          & subseq rows2 rows1]].

(** A data row of the table: two labels followed by four numbers. *)
Definition data_row (row : seq cell) : bool :=
  if row is [:: Str _; Str _; Num _; Num _; Num _; Num _] then true
  else false.

(** A decimal digit, as printed by [str]. *)
Definition is_digit (c : ascii) : bool :=
  has (Ascii.eqb c) (list_ascii_of_string "0123456789").

(** ** Test data

    The two-orbital scenario of the specification, and a variant of it in
    which both orbital energies are equal. *)

Definition scenario_F : ndarray :=
  [:: [:: literal (-5) 10; literal 2 100];
      [:: literal 2 100; literal (-3) 10]].

Definition scenario_D : ndarray :=
  [:: [:: literal 198 100; literal 1 10];
      [:: literal 1 10; literal 2 100]].

Definition scenario_names : option (seq string) :=
  Some [:: "LP(A)"%string; "BD*(B)"%string].

Definition degenerate_F : ndarray :=
  [:: [:: literal (-5) 10; literal 2 100];
      [:: literal 2 100; literal (-5) 10]].

(** Three orbitals: two donors (occupancies 1.9 and 1.8) and one acceptor
    (occupancy 0.1). *)
Definition three_F : ndarray :=
  [:: [:: literal (-5) 10; literal 2 100; literal 2 100];
      [:: literal 2 100; literal (-4) 10; literal 2 100];
      [:: literal 2 100; literal 2 100; literal 1 10]].

Definition three_D : ndarray :=
  [:: [:: literal 19 10; literal 2 10; literal 2 10];
      [:: literal 2 10; literal 18 10; literal 2 10];
      [:: literal 2 10; literal 2 10; literal 1 10]].

(** A density matrix with a single entry, and a one-orbital Fock matrix. *)
Definition short_D : ndarray := [:: [:: literal 198 100]].
Definition single_F : ndarray := [:: [:: literal (-5) 10]].

(** Two transformation matrices: [[3, 3], [5, 5]], whose determinant
    3*5 - 3*5 is zero, and the all-zero matrix. *)
Definition singular_T : ndarray :=
  [:: [:: of_Z 3; of_Z 3]; [:: of_Z 5; of_Z 5]].
Definition zero_T : ndarray :=
  [:: [:: f_zero; f_zero]; [:: f_zero; f_zero]].

(** The scan of the scenario at a given charge-transfer threshold. *)
Definition scan_scenario (qCT_threshold : float64) :
    option (seq (seq cell)) :=
  doE2Analysis round_ref pow_ref scenario_F scenario_D scenario_names
    qCT_threshold default_E_threshold.


(** ** Binary64 comparisons and special values *)

Ltac compare_cases :=
  repeat match goal with
  | |- context [Z.compare ?a ?b] => case: (Z.compare_spec a b) => ?
  | |- context [Pos.compare ?a ?b] => case: (Pos.compare_spec a b) => ?
  end.

(** [x <= y] and [y < z] give [x < z], NaN included (no comparison with a
    NaN holds). *)
Lemma fle_flt_trans (x y z : float64) : fle x y -> flt y z -> flt x z.
Proof.
rewrite /fle /flt /SFleb /SFltb.
case: x => [sx|sx||sx mx ex]; case: y => [sy|sy||sy my ey] //=;
  case: z => [sz|sz||sz mz ez] //=;
  try (by case: sx; case: sy => //; case: sz);
  try (by case: sx => //; case: sy => //; case: sz => //).
rewrite -!/(Pos.compare _ _).
by case: sx; case: sy => //; case: sz => //; compare_cases => //=; lia.
Qed.

Lemma feq_finite_inv (sx : bool) (mx : positive) (ex : Z)
    (sy : bool) (my : positive) (ey : Z) :
  feq (S754_finite sx mx ex) (S754_finite sy my ey) ->
  [/\ sx = sy, mx = my & ex = ey].
Proof.
rewrite /feq /SFeqb /= -!/(Pos.compare _ _).
by case: sx; case: sy => //; compare_cases.
Qed.

Lemma feq_sym (x y : float64) : feq x y = feq y x.
Proof.
rewrite /feq /SFeqb.
case: x => [sx|sx||sx mx ex]; case: y => [sy|sy||sy my ey] //=;
  try (by case: sx; case: sy); try (by case: sx); try (by case: sy).
rewrite -!/(Pos.compare _ _) (Z.compare_antisym ex ey).
rewrite (Pos.compare_antisym mx my).
by case: sx; case: sy => //; case: (ex ?= ey)%Z => //=;
   case: (mx ?= my)%positive.
Qed.

(** Equal energies have a zero difference (or an undefined one, when both
    are the same infinity). *)
Lemma fsub_feq (x y : float64) : feq x y -> degenerate (fsub x y).
Proof.
case: x => [sx|sx||sx mx ex]; case: y => [sy|sy||sy my ey] //;
  try (by case: sx; case: sy);
  try (by rewrite /feq /SFeqb /=; case: sx);
  try (by rewrite /feq /SFeqb /=; case: sy).
case/feq_finite_inv=> -> -> ->.
by rewrite /fsub /SFsub Z.sub_diag.
Qed.

Lemma fdiv_degenerate (a d : float64) :
  degenerate d -> ~~ is_finite (fdiv a d).
Proof. by case: d => [s|s||s m e] //= _; case: a. Qed.

Lemma fmul_two_nonfinite (v : float64) :
  ~~ is_finite v -> ~~ is_finite (fmul f_two v).
Proof. by case: v. Qed.

Lemma fmul_nonfinite_degenerate (v d : float64) :
  ~~ is_finite v -> degenerate d -> fmul v d = S754_nan.
Proof. by case: v => [s|s||s m e] //= _; case: d. Qed.

(** ** Indexing inside the bounds *)

Lemma item_nth (T : Type) (x0 : T) (s : seq T) (i : nat) :
  i < size s -> item s i = Some (nth x0 s i).
Proof. by elim: s i => [|x s IH] [|i] //=; apply: IH. Qed.

Lemma item_none (T : Type) (s : seq T) (i : nat) :
  size s <= i -> item s i = None.
Proof. by elim: s i => [|x s IH] [|i] //=; apply: IH. Qed.

Lemma getitem_square (n : nat) (M : ndarray) (i j : nat) :
  square n M -> i < n -> j < n -> getitem M i j = Some (entry M i j).
Proof.
case/andP=> /eqP szM /all_nthP rows lt_i lt_j.
have row_i : size (nth [::] M i) = n by apply/eqP/rows; rewrite szM.
have get : getitem M i j = Some (nth S754_nan (nth [::] M i) j).
  by rewrite /getitem (item_nth [::]) ?szM //= (item_nth S754_nan) ?row_i.
by rewrite /entry get.
Qed.

Lemma item_labelled (n : nat) (l : seq string) (i : nat) :
  labelled n (Some l) -> i < n -> item l i = Some (name_of (Some l) i).
Proof.
move=> /eqP szl lt_i.
by rewrite /name_of (item_nth ""%string) ?szl.
Qed.

(** ** Loops that only append to an output *)

Section Collect.

Variables (S R : Type) (I : S -> Prop) (out : S -> seq R).
Variables (body : nat -> S -> option S) (f : nat -> seq R).

Lemma for_in_collect (r : seq nat) :
  (forall i st, i \in r -> I st ->
     exists2 st', body i st = Some st' & I st' /\ out st' = out st ++ f i) ->
  forall st, I st ->
    exists2 st', for_in r body st = Some st'
      & I st' /\ out st' = out st ++ flatten [seq f i | i <- r].
Proof.
elim: r => [|i r IH] step st Ist /=.
  by exists st => //; rewrite cats0.
have [|st1 -> [Ist1 out1]] := step i st _ Ist; first exact: mem_head.
have [|st2 run [Ist2 out2]] /= := IH _ st1 Ist1.
  by move=> k st' k_r; apply: step; rewrite in_cons k_r orbT.
by exists st2 => //; split=> //; rewrite out2 out1 catA.
Qed.

End Collect.

Lemma flatten_singles (A B C : Type) (g : A -> B) (f : B -> C) (P : pred B)
    (s : seq A) :
  flatten [seq [seq f q | q <- [:: g x] & P q] | x <- s] =
  [seq f q | q <- [seq g x | x <- s] & P q].
Proof. by elim: s => //= x s ->; case: (P (g x)). Qed.

(** ** The scan in closed form *)

Section Scan_spec.

Variable round : float64 -> Z -> float64.
Variable pow : float64 -> Z -> float64.
Variables F D : ndarray.
Variable names : option (seq string).
Variable threshold : float64.
Variable n : nat.

Hypothesis F_square : square n F.
Hypothesis D_square : square n D.
Hypothesis names_labelled : labelled n names.

Let tidy := tidy names.

Let emit (p : nat * nat) : seq (seq cell) :=
  [seq record_of round pow F D names q | q <- [:: p] & passes D threshold q].

Lemma visit_collect (i j : nat) (st : locals) :
  i < n -> j < n -> tidy st ->
  exists2 st', visit round pow F D names threshold i j st = Some st'
    & tidy st' /\ result st' = result st ++ emit (i, j).
Proof.
move=> lt_i lt_j [pending unknown].
rewrite /visit /emit /passes /=.
case: (i == j) => /=; first by exists st => //; rewrite cats0.
rewrite !(getitem_square F_square) // !(getitem_square D_square) //=.
have [ii [jj [-> [ii_eq jj_eq]]]] :
  exists ii jj,
    match names with
    | Some l => ni <~ item l i ;; nj <~ item l j ;; Some (ni, nj)
    | None => Some (ii_Name st, jj_Name st)
    end = Some (ii, jj) /\ ii = name_of names i /\ jj = name_of names j.
  case: names names_labelled unknown => [l|] lab unk.
    exists (name_of (Some l) i), (name_of (Some l) j).
    by rewrite !(item_labelled lab).
  by have [-> ->] := unk erefl; exists "unknown"%string, "unknown"%string.
have tidy' q e rows : tidy (Locals ii jj q e [::] rows).
  by split=> //= names_none; rewrite ii_eq jj_eq names_none.
rewrite /= /candidate /lowest_donor_occ /highest_accpt_occ pending /=.
case: ifP => _ /=; last first.
  by eexists; [reflexivity | split; rewrite ?cats0].
rewrite /charge_transfer.
case: ifP => _ /=; last first.
  by eexists; [reflexivity | split; rewrite ?cats0].
eexists; first by reflexivity.
split=> //=; rewrite -cats1; congr (_ ++ [:: _]).
by rewrite /record_of /energy /charge_transfer /= ii_eq jj_eq.
Qed.

Lemma scan_collect (st : locals) :
  tidy st ->
  exists2 st', scan round pow F D names threshold st = Some st'
    & tidy st' /\
      result st' =
        result st ++ [seq record_of round pow F D names p
                     | p <- row_major n & passes D threshold p].
Proof.
move=> tidy_st.
have szF : size F = n by case/andP: F_square => /eqP.
have inner i st1 : i \in range n -> tidy st1 ->
  exists2 st', for_in (range n) (visit round pow F D names threshold i) st1
                 = Some st'
    & tidy st' /\
      result st' = result st1 ++ flatten [seq emit (i, j) | j <- range n].
  rewrite mem_iota add0n => /andP[_ lt_i] tidy1.
  apply: (for_in_collect (I := tidy) (out := result)) => // j st2.
  by rewrite mem_iota add0n => /andP[_ lt_j]; apply: visit_collect.
have [st' run [tidy' res']] :=
  for_in_collect (I := tidy) (out := result) inner tidy_st.
exists st'; first by rewrite /scan szF.
split=> //; rewrite {}res'; congr (_ ++ _).
rewrite /row_major filter_flatten map_flatten -!map_comp.
by congr flatten; apply: eq_map => i /=; rewrite /emit flatten_singles.
Qed.

(** On well-shaped inputs the function returns the header followed by the
    records of the passing pairs, in loop order. *)
Lemma doE2Analysis_closed_form (E_threshold : float64) :
  doE2Analysis round pow F D names threshold E_threshold =
  Some (titles :: [seq record_of round pow F D names p
                  | p <- row_major n & passes D threshold p]).
Proof.
rewrite /doE2Analysis.
set st0 := Locals _ _ _ _ _ _.
have tidy0 : tidy st0 by [].
by have [st' -> [_ /= ->]] := scan_collect tidy0.
Qed.

End Scan_spec.

(** ** The enumeration of ordered pairs *)

Lemma mem_row_major (n i j : nat) :
  ((i, j) \in row_major n) = (i < n) && (j < n).
Proof.
apply/allpairsP/andP => [[[i' j'] /= [i_n j_n [-> ->]]]|[lt_i lt_j]].
  by move: i_n j_n; rewrite !mem_iota !add0n.
by exists (i, j); rewrite /= !mem_iota !add0n.
Qed.

Lemma row_major_lt_trans : transitive row_major_lt.
Proof.
move=> [i2 j2] [i1 j1] [i3 j3]; rewrite /row_major_lt /=.
case/orP=> [lt12|/andP[/eqP-> lt12]]; case/orP=> [lt23|/andP[/eqP<- lt23]].
- by rewrite (ltn_trans lt12 lt23).
- by rewrite lt12.
- by rewrite lt23.
- by rewrite eqxx (ltn_trans lt12 lt23) orbT.
Qed.

Lemma row_major_lt_irr : irreflexive row_major_lt.
Proof. by case=> i j; rewrite /row_major_lt /= !ltnn andbF. Qed.

Lemma pairwise_allpairs (s t : seq nat) :
  pairwise ltn s -> pairwise ltn t ->
  pairwise row_major_lt [seq (i, j) | i <- s, j <- t].
Proof.
move=> + sorted_t; elim: s => [|i s IH] //= /andP[lt_i sorted_s].
rewrite pairwise_cat IH // andbT pairwise_map; apply/andP; split.
  apply/allrelP => p q /mapP[j _ ->] /allpairsP[[i' j'] /= [i'_s _ ->]].
  by rewrite /row_major_lt /=; have /= -> := allP lt_i _ i'_s.
apply: sub_pairwise sorted_t => j j' /= lt_j.
by rewrite /row_major_lt /= ltnn eqxx.
Qed.

Lemma pairwise_row_major (n : nat) : pairwise row_major_lt (row_major n).
Proof.
have sorted_range : pairwise ltn (range n).
  by rewrite -(sorted_pairwise ltn_trans) iota_ltn_sorted.
exact: pairwise_allpairs.
Qed.

(** ** Properties of doE2Analysis *)

Section Scan_claims.

Variable round : float64 -> Z -> float64.
Variable pow : float64 -> Z -> float64.
Variables F D : ndarray.
Variable names : option (seq string).
Variable n : nat.

Hypothesis F_square : square n F.
Hypothesis D_square : square n D.
Hypothesis names_labelled : labelled n names.

Let analyze := doE2Analysis round pow F D names.
Let closed_form (qCT_threshold E_threshold : float64) :=
  @doE2Analysis_closed_form round pow F D names qCT_threshold n
    F_square D_square names_labelled E_threshold.

(** C1: every record that is emitted belongs to a pair of indices that
    satisfies the candidate conditions, and its stored values are
    [Eij = fock[i,j]], [qCT_raw = 2*(Eij/(Eii-Ejj))^2],
    [E2 = qCT_raw*(Ejj-Eii)*627.509], [Dij = density[i,j]],
    [qCT = Dij^2/Dii], with the occupancies and qCT rounded to 4 decimals
    and E2 rounded to 2 decimals. *)
Theorem C1_record_values (qCT_threshold E_threshold : float64) :
  exists2 ps : seq (nat * nat),
    analyze qCT_threshold E_threshold =
      Some (titles ::
            [seq (let: (i, j) := p in
                  let Eii := entry F i i in
                  let Ejj := entry F j j in
                  let Dii := entry D i i in
                  let Djj := entry D j j in
                  let Eij := entry F i j in
                  let qCT_raw := fmul f_two (pow (fdiv Eij (fsub Eii Ejj)) 2) in
                  let E2 := fmul (fmul qCT_raw (fsub Ejj Eii))
                              kcal_per_hartree in
                  let Dij := entry D i j in
                  let qCT := fdiv (fmul Dij Dij) Dii in
                  [:: Str (label (name_of names i) i);
                      Str (label (name_of names j) j);
                      Num (round Dii 4); Num (round Djj 4);
                      Num (round qCT 4); Num (round E2 2)])
            | p <- ps])
  & all (fun p => [&& p.1 < n, p.2 < n, fgt (entry D p.1 p.1) f_one,
                      flt (entry D p.2 p.2) f_one
                    & flt (entry D p.2 p.2) (entry D p.1 p.1)]) ps.
Proof.
exists [seq p <- row_major n | passes D qCT_threshold p].
  rewrite /analyze closed_form; congr (Some (_ :: _)).
  by apply: eq_map => -[i j].
apply/allP=> -[i j]; rewrite mem_filter mem_row_major /passes /candidate /=.
by case/andP=> /and3P[_ -> _] /andP[-> ->].
Qed.

(** C2: a record is emitted for the ordered pair (i, j) if and only if
    i <> j, Dii > 1.0, Djj < 1.0, Djj < Dii and the unrounded
    qCT = Dij^2/Dii exceeds the threshold; no record is emitted for
    i = j. *)
Theorem C2_emission_condition (qCT_threshold E_threshold : float64) :
  exists2 ps : seq (nat * nat),
    analyze qCT_threshold E_threshold =
      Some (titles :: [seq record_of round pow F D names p | p <- ps])
  & [/\ uniq ps,
        forall i j,
          ((i, j) \in ps) =
          [&& i < n, j < n, i != j,
              fgt (entry D i i) f_one, flt (entry D j j) f_one,
              flt (entry D j j) (entry D i i)
            & fgt (fdiv (fmul (entry D i j) (entry D i j)) (entry D i i))
                  qCT_threshold]
      & forall i, (i, i) \notin ps].
Proof.
exists [seq p <- row_major n | passes D qCT_threshold p].
  by rewrite /analyze closed_form.
have mem i j :
  ((i, j) \in [seq p <- row_major n | passes D qCT_threshold p]) =
  [&& i < n, j < n, i != j,
      fgt (entry D i i) f_one, flt (entry D j j) f_one,
      flt (entry D j j) (entry D i i)
    & fgt (fdiv (fmul (entry D i j) (entry D i j)) (entry D i i))
          qCT_threshold].
  rewrite mem_filter mem_row_major /passes /candidate /charge_transfer /=.
  by rewrite andbC -!andbA.
split=> // [|i]; last by rewrite mem eqxx /= !andbF.
apply/filter_uniq/(pairwise_uniq row_major_lt_irr)/pairwise_row_major.
Qed.

(** C6: the records come out in the order of the double loop over
    i in [0,N) (outer) and j in [0,N) (inner), restricted to the pairs that
    qualify and pass the threshold; the pairs of consecutive records
    increase in row-major order. *)
Theorem C6_row_major_order (qCT_threshold E_threshold : float64) :
  let ps := [seq p <- [seq (i, j) | i <- iota 0 n, j <- iota 0 n]
            | passes D qCT_threshold p] in
  analyze qCT_threshold E_threshold =
    Some (titles :: [seq record_of round pow F D names p | p <- ps])
  /\ sorted row_major_lt ps.
Proof.
split; first by rewrite /analyze closed_form.
exact/pairwise_sorted/pairwise_filter/pairwise_row_major.
Qed.

(** C10: the first element of the returned sequence is the header row of
    six names, every other element has exactly 6 fields, and when no pair
    qualifies (in particular for N <= 1) the header is the only element;
    no error is raised. *)
Theorem C10_header_and_width (qCT_threshold E_threshold : float64) :
  exists2 rows : seq (seq cell),
    analyze qCT_threshold E_threshold =
      Some ([:: Str "Donor orbital"; Str "Acceptor orbital";
                Str "Donor occupancy"; Str "Acceptor occupancy";
                Str "Charge transfer (e)"; Str "E2 energy (kcal/mol)"]
            :: rows)
  & [/\ all (fun row => size row == 6) rows,
        ~~ has (passes D qCT_threshold) (row_major n) -> rows = [::]
      & n <= 1 -> rows = [::]].
Proof.
eexists; first by rewrite /analyze closed_form.
split.
- by rewrite all_map; apply/allP.
- by rewrite has_filter negbK => /eqP->.
- by case: n => [|[|m]].
Qed.

End Scan_claims.

(** C4: the value of [E_threshold] has no effect on the result. *)
Theorem C4_energy_threshold_unused (round pow : float64 -> Z -> float64)
    (Fock_matrix D_matrix : ndarray) (orbital_names : option (seq string))
    (qCT_threshold t1 t2 : float64) :
  doE2Analysis round pow Fock_matrix D_matrix orbital_names qCT_threshold t1 =
  doE2Analysis round pow Fock_matrix D_matrix orbital_names qCT_threshold t2.
Proof. by []. Qed.

(** ** Raising the charge-transfer threshold *)

Lemma for_in_orel (S : Type) (R : S -> S -> Prop)
    (body2 body1 : nat -> S -> option S) (r : seq nat) :
  (forall i st2 st1, R st2 st1 -> orel R (body2 i st2) (body1 i st1)) ->
  forall st2 st1, R st2 st1 ->
    orel R (for_in r body2 st2) (for_in r body1 st1).
Proof.
move=> step; elim: r => [|i r IH] st2 st1 Rst //=.
have := step i _ _ Rst.
by case: (body2 i st2) => [a|]; case: (body1 i st1) => [b|] //=; apply: IH.
Qed.

Section Two_thresholds.

Variable round : float64 -> Z -> float64.
Variable pow : float64 -> Z -> float64.
Variables F D : ndarray.
Variable names : option (seq string).
Variables t1 t2 : float64.

Hypothesis le_t : fle t1 t2.

(** One iteration at both thresholds: the same exception, or the same
    locals with a row added at [t1] whenever one is added at [t2]. *)
Lemma visit_monotone (i j : nat) (st2 st1 : locals) :
  fewer_rows st2 st1 ->
  orel fewer_rows (visit round pow F D names t2 i j st2)
                  (visit round pow F D names t1 i j st1).
Proof.
move=> rel; have [eq_ii eq_jj eq_int [rows2 [rows1 [res2 res1 sub]]]] := rel.
rewrite /visit; case: (i == j) => //=.
case: (getitem F i i) => [Eii|] //=; case: (getitem F j j) => [Ejj|] //=.
case: (getitem D i i) => [Dii|] //=; case: (getitem D j j) => [Djj|] //=.
rewrite eq_ii eq_jj eq_int res2 res1.
case: (match names with Some _ => _ | None => _ end) => [[ii jj]|] //=.
case: ifP => _ /=; first last.
  by split=> //=; exists rows2, rows1.
case: (getitem F i j) => [Eij|] //=; case: (getitem D i j) => [Dij|] //=.
case gt2: (fgt _ t2) => /=.
  rewrite /fgt (fle_flt_trans le_t gt2) /=; split=> //=.
  do 2!eexists; split; [reflexivity | reflexivity |].
  by rewrite -!cats1; apply: cat_subseq.
case: ifP => _ /=; split=> //=; last by exists rows2, rows1.
do 2!eexists; split; [reflexivity | reflexivity |].
exact: (subseq_trans sub (subseq_rcons _ _)).
Qed.

(** C7: for thresholds t1 <= t2 and any Fock matrix, density matrix and
    labels, the two calls either both raise or both return the header
    followed by their records, and the records emitted with t2 are a
    subsequence of the records emitted with t1. *)
Theorem C7_threshold_monotone (E_threshold : float64) :
  match doE2Analysis round pow F D names t1 E_threshold,
        doE2Analysis round pow F D names t2 E_threshold with
  | Some table1, Some table2 =>
      exists rows1 rows2,
        [/\ table1 = titles :: rows1, table2 = titles :: rows2
          & subseq rows2 rows1]
  | None, None => True
  | _, _ => False
  end.
Proof.
rewrite /doE2Analysis /scan; set st0 := Locals _ _ _ _ _ _.
have rel0 : fewer_rows st0 st0 by split=> //; exists [::], [::].
have inner i (st2 st1 : locals) :
  fewer_rows st2 st1 ->
  orel fewer_rows
    (for_in (range (size F)) (visit round pow F D names t2 i) st2)
    (for_in (range (size F)) (visit round pow F D names t1 i) st1).
  by apply: for_in_orel => j st2' st1'; apply: visit_monotone.
have := for_in_orel (range (size F)) inner rel0.
case: (for_in _ _ st0) => [st2|]; case: (for_in _ _ st0) => [st1|] //=.
by case=> _ _ _ [rows2 [rows1 [-> -> sub]]]; exists rows1, rows2.
Qed.

End Two_thresholds.

(** ** Equal donor and acceptor energies *)

Section Degenerate_energy.

Variable round : float64 -> Z -> float64.
Variable pow : float64 -> Z -> float64.

(** What the two library functions do on special values: rounding an
    undefined value leaves it undefined, and the square of an infinite or
    undefined value is again infinite or undefined. *)
Hypothesis round_nan : forall ndigits, round S754_nan ndigits = S754_nan.
Hypothesis pow_nonfinite : forall x, ~~ is_finite x -> ~~ is_finite (pow x 2).

Lemma energy_degenerate (F : ndarray) (i j : nat) :
  feq (entry F i i) (entry F j j) -> energy pow F i j = S754_nan.
Proof.
move=> eq_E; rewrite /energy.
have zero_ij := fsub_feq eq_E.
have zero_ji : degenerate (fsub (entry F j j) (entry F i i)).
  by apply: fsub_feq; rewrite feq_sym.
rewrite (@fmul_nonfinite_degenerate _ (fsub _ _)) //.
exact/fmul_two_nonfinite/pow_nonfinite/fdiv_degenerate.
Qed.

(** C5: a candidate pair with Eii == Ejj whose charge transfer passes the
    threshold is not skipped: its record is emitted, and the energy stored
    in it is the undefined value (NaN), not a finite number. *)
Theorem C5_degenerate_energy_propagates (F D : ndarray)
    (names : option (seq string)) (n : nat)
    (qCT_threshold E_threshold : float64) (i j : nat) :
  square n F -> square n D -> labelled n names ->
  i < n -> j < n -> i != j ->
  fgt (entry D i i) f_one -> flt (entry D j j) f_one ->
  flt (entry D j j) (entry D i i) ->
  feq (entry F i i) (entry F j j) ->
  fgt (fdiv (fmul (entry D i j) (entry D i j)) (entry D i i)) qCT_threshold ->
  exists (rows : seq (seq cell)) (e2 : float64),
    [/\ doE2Analysis round pow F D names qCT_threshold E_threshold =
          Some (titles :: rows),
        [:: Str (label (name_of names i) i); Str (label (name_of names j) j);
            Num (round (entry D i i) 4); Num (round (entry D j j) 4);
            Num (round (fdiv (fmul (entry D i j) (entry D i j)) (entry D i i))
                   4);
            Num e2] \in rows
      & is_nan e2].
Proof.
move=> F_sq D_sq lab lt_i lt_j neq_ij don acc flow eq_E pass.
exists [seq record_of round pow F D names p
       | p <- row_major n & passes D qCT_threshold p], S754_nan.
split=> //; first exact: doE2Analysis_closed_form.
apply/mapP; exists (i, j).
  rewrite mem_filter mem_row_major lt_i lt_j /passes /candidate /=.
  by rewrite neq_ij don acc flow /charge_transfer pass.
by rewrite /record_of /= energy_degenerate // round_nan.
Qed.

End Degenerate_energy.

(** ** Properties of loadMatrices *)

Section Basis_claims.

Variable K : fieldType.
Variable n : nat.
Variables fockSrc densitySrc xform1 xform2 : 'M[K]_n.
Variable labels : n.-tuple string.

Local Open Scope ring_scope.


End Basis_claims.

(** ** loadMatrices on float64 arrays *)

Lemma idamax_from_zeros (best k : nat) (xs : seq float64) :
  all is_zero xs -> idamax_from best f_zero k xs = best.
Proof.
elim: xs k => [|x xs IH] k //= /andP[zero_x zeros].
have -> : fgt (fabs x) f_zero = false.
  by move: zero_x; rewrite /is_zero /feq /fgt /flt; case: x => [[]|[]||[] m e].
exact: IH.
Qed.

Lemma idamax_zeros (xs : seq float64) : all is_zero xs -> idamax xs = 0.
Proof.
case: xs => [|x xs] //= /andP[zero_x zeros].
have -> : fabs x = f_zero.
  by move: zero_x; rewrite /is_zero /feq; case: x => [[]|[]||[] m e].
exact: idamax_from_zeros.
Qed.

Lemma eliminate_zero_column (n : nat)
    (rows : seq (seq float64 * seq float64)) :
  0 < size rows -> all (fun r => is_zero (head S754_nan r.1)) rows ->
  eliminate n.+1 rows = None.
Proof.
move=> nonempty zeros.
have zero_col : all is_zero [seq head S754_nan r.1 | r <- rows].
  by rewrite all_map.
rewrite /= (idamax_zeros zero_col) /swap_rows.
case: rows nonempty zeros {zero_col} => [|[u y] rows] //= _ /andP[zero_u _].
by rewrite zero_u.
Qed.

Lemma all_zip_left (P : pred (seq float64)) (A B : seq (seq float64)) :
  all P A -> all (fun r => P r.1) (zip A B).
Proof.
by elim: A B => [|a A IH] [|b B] //= /andP[-> /IH->].
Qed.

(** A matrix whose first column is zero, the all-zero matrix among them,
    has a zero first pivot: the reference inversion raises. *)
Lemma linalg_inv_ref_zero_column (A : ndarray) :
  0 < size A -> all (fun row => is_zero (head S754_nan row)) A ->
  linalg_inv_ref A = None.
Proof.
move=> nonempty zeros; rewrite /linalg_inv_ref; case: ifP => // _.
case size_A: (size A) nonempty => [|n] // _.
rewrite eliminate_zero_column //; last first.
  exact: (@all_zip_left (fun row => is_zero (head S754_nan row))).
by rewrite size_zip size_A /eye size_map size_iota minnn.
Qed.

(** C9 (as amended): when numpy.linalg.inv raises on either transformation
    matrix, the function raises too and returns no result, whatever the
    other arguments are. *)
Theorem C9_inversion_error_propagates
    (inv : ndarray -> option ndarray)
    (matmul : ndarray -> ndarray -> option ndarray)
    (fockSrc densitySrc xform1 xform2 : ndarray) (labels : seq string) :
  ~~ (isSome (inv xform1) && isSome (inv xform2)) ->
  Binary64.loadMatrices inv matmul fockSrc densitySrc xform1 xform2 labels
  = None.
Proof.
rewrite /Binary64.loadMatrices.
by case: (inv xform2) => [inv2|] //=; case: (inv xform1).
Qed.

(** ** The scenario of the specification, evaluated *)

Example constants_are_the_literals :
  [/\ Prim2SF 1 = f_one, Prim2SF 2 = f_two,
      Prim2SF 0x1.39c126e978d5p+9 = kcal_per_hartree
    & Prim2SF 0x1.47ae147ae147bp-7 = default_qCT_threshold].
Proof. by split; vm_compute. Qed.

(** qCT = 0.1^2/1.98 is about 0.00505: nothing is reported at the default
    threshold 0.01. *)
Example scenario_default_threshold :
  scan_scenario default_qCT_threshold = Some [:: titles].
Proof. by vm_compute. Qed.

(** At threshold 0.001 the pair (donor 1, acceptor 2) is the one record. *)
Example scenario_low_threshold :
  scan_scenario (literal 1 1000) =
  Some [:: titles;
           [:: Str "LP(A) (1)"; Str "BD*(B) (2)";
               Num (literal 198 100); Num (literal 2 100);
               Num (literal 51 10000); Num (literal 251 100)]].
Proof. by vm_compute. Qed.

Example scenario_without_labels :
  doE2Analysis round_ref pow_ref scenario_F scenario_D None
    (literal 1 1000) default_E_threshold =
  Some [:: titles;
           [:: Str "unknown (1)"; Str "unknown (2)";
               Num (literal 198 100); Num (literal 2 100);
               Num (literal 51 10000); Num (literal 251 100)]].
Proof. by vm_compute. Qed.

(** Two donors and one acceptor: the rows come out in loop order, and a
    single orbital gives the header alone. *)
Example three_orbitals_in_loop_order :
  omap (map (take 2))
    (doE2Analysis round_ref pow_ref three_F three_D None
       default_qCT_threshold default_E_threshold) =
  Some [:: [:: Str "Donor orbital"; Str "Acceptor orbital"];
           [:: Str "unknown (1)"; Str "unknown (3)"];
           [:: Str "unknown (2)"; Str "unknown (3)"]].
Proof. by vm_compute. Qed.

Example one_orbital_header_only :
  doE2Analysis round_ref pow_ref [:: [:: literal (-5) 10]]
    [:: [:: literal 198 100]] None default_qCT_threshold
    default_E_threshold = Some [:: titles].
Proof. by vm_compute. Qed.

(** A density matrix smaller than the Fock matrix raises [IndexError]. *)
Example short_density_is_an_error :
  doE2Analysis round_ref pow_ref scenario_F [:: [:: literal 198 100]]
    scenario_names (literal 1 1000) default_E_threshold = None.
Proof. by vm_compute. Qed.

(** Equal orbital energies: the record is there and its energy is NaN. *)
Example degenerate_scenario :
  doE2Analysis round_ref pow_ref degenerate_F scenario_D scenario_names
    (literal 1 1000) default_E_threshold =
  Some [:: titles;
           [:: Str "LP(A) (1)"; Str "BD*(B) (2)";
               Num (literal 198 100); Num (literal 2 100);
               Num (literal 51 10000); Num S754_nan]].
Proof. by vm_compute. Qed.

(** ** The statements at concrete inputs *)

Lemma C1_scenario :
  exists2 ps : seq (nat * nat),
    scan_scenario (literal 1 1000) =
      Some (titles ::
            [seq record_of round_ref pow_ref scenario_F scenario_D
                   scenario_names p | p <- ps])
  & all (fun p => [&& p.1 < 2, p.2 < 2 & candidate scenario_D p.1 p.2]) ps.
Proof.
have shapeF : square 2 scenario_F by [].
have shapeD : square 2 scenario_D by [].
have shapeN : labelled 2 scenario_names by [].
have [ps run cand] :=
  C1_record_values round_ref pow_ref shapeF shapeD shapeN
    (literal 1 1000) default_E_threshold.
exists ps; last exact: cand.
by rewrite /scan_scenario run; congr (Some (_ :: _)); apply: eq_map => -[i j].
Defined.

Lemma C2_scenario :
  exists2 ps : seq (nat * nat),
    scan_scenario (literal 1 1000) =
      Some (titles ::
            [seq record_of round_ref pow_ref scenario_F scenario_D
                   scenario_names p | p <- ps])
  & ((0, 1) \in ps) && ((1, 0) \notin ps) && ((0, 0) \notin ps).
Proof.
have shapeF : square 2 scenario_F by [].
have shapeD : square 2 scenario_D by [].
have shapeN : labelled 2 scenario_names by [].
have [ps run [_ mem _]] :=
  C2_emission_condition round_ref pow_ref shapeF shapeD shapeN
    (literal 1 1000) default_E_threshold.
by exists ps; rewrite ?mem.
Defined.

Lemma C6_scenario :
  scan_scenario (literal 1 1000) =
    Some (titles ::
          [seq record_of round_ref pow_ref scenario_F scenario_D
                 scenario_names p
          | p <- [:: (0, 0); (0, 1); (1, 0); (1, 1)]
          & passes scenario_D (literal 1 1000) p]).
Proof.
have shapeF : square 2 scenario_F by [].
have shapeD : square 2 scenario_D by [].
have shapeN : labelled 2 scenario_names by [].
have [run _] :=
  C6_row_major_order round_ref pow_ref shapeF shapeD shapeN
    (literal 1 1000) default_E_threshold.
exact: run.
Defined.

Lemma C7_scenario :
  exists rows1 rows2 : seq (seq cell),
    [/\ scan_scenario (literal 1 1000) = Some (titles :: rows1),
        scan_scenario default_qCT_threshold = Some (titles :: rows2)
      & subseq rows2 rows1].
Proof.
have le_t : fle (literal 1 1000) default_qCT_threshold by [].
have := C7_threshold_monotone round_ref pow_ref scenario_F scenario_D
          scenario_names le_t default_E_threshold.
rewrite -!/(scan_scenario _) scenario_low_threshold.
rewrite scenario_default_threshold.
by case=> rows1 [rows2 [[<-] [<-] sub]]; do 2!eexists.
Defined.

Lemma C10_scenario :
  exists2 rows : seq (seq cell),
    scan_scenario (literal 1 1000) = Some (titles :: rows)
  & all (fun row => size row == 6) rows.
Proof.
have shapeF : square 2 scenario_F by [].
have shapeD : square 2 scenario_D by [].
have shapeN : labelled 2 scenario_names by [].
have [rows run [width _ _]] :=
  C10_header_and_width round_ref pow_ref shapeF shapeD shapeN
    (literal 1 1000) default_E_threshold.
by exists rows.
Defined.

Lemma C5_scenario :
  exists (rows : seq (seq cell)) (e2 : float64),
    [/\ doE2Analysis round_ref pow_ref degenerate_F scenario_D scenario_names
          (literal 1 1000) default_E_threshold = Some (titles :: rows),
        [:: Str "LP(A) (1)"; Str "BD*(B) (2)";
            Num (literal 198 100); Num (literal 2 100);
            Num (literal 51 10000); Num e2] \in rows
      & is_nan e2].
Proof.
have round_nan d : round_ref S754_nan d = S754_nan by [].
have pow_nonfinite x : ~~ is_finite x -> ~~ is_finite (pow_ref x 2).
  by case: x => [s|[]||s m e].
have shapeF : square 2 degenerate_F by [].
have shapeD : square 2 scenario_D by [].
have shapeN : labelled 2 scenario_names by [].
have [rows [e2 [run mem nan_e2]]] :=
  @C5_degenerate_energy_propagates round_ref pow_ref round_nan pow_nonfinite
    degenerate_F scenario_D scenario_names 2 (literal 1 1000)
    default_E_threshold 0 1 shapeF shapeD shapeN
    isT isT isT isT isT isT isT isT.
by exists rows, e2; split.
Defined.



(** The reference inversion on small matrices: the identity, a diagonal
    matrix, a singular matrix whose second pivot is exactly zero, and a
    matrix that is not square. *)
Example linalg_inv_ref_small :
  [/\ linalg_inv_ref (eye 2) = Some (eye 2),
      linalg_inv_ref [:: [:: of_Z 2; f_zero]; [:: f_zero; of_Z 4]] =
        Some [:: [:: literal 1 2; f_zero]; [:: f_zero; literal 1 4]],
      linalg_inv_ref [:: [:: of_Z 1; of_Z 2]; [:: of_Z 2; of_Z 4]] = None
    & linalg_inv_ref [:: [:: of_Z 1; of_Z 2]] = None].
Proof. by split; vm_compute. Qed.

Example matmul_ref_small :
  [/\ matmul_ref [:: [:: of_Z 1; of_Z 2]; [:: of_Z 3; of_Z 4]]
        [:: [:: of_Z 5; of_Z 6]; [:: of_Z 7; of_Z 8]] =
        Some [:: [:: of_Z 19; of_Z 22]; [:: of_Z 43; of_Z 50]]
    & matmul_ref (eye 2) [:: [:: of_Z 1; of_Z 2]] = None].
Proof. by split; vm_compute. Qed.

(** The all-zero matrix as either transformation matrix. *)
Lemma C9_zero_matrix_raises :
  Binary64.loadMatrices linalg_inv_ref matmul_ref scenario_F scenario_D
    zero_T (eye 2) [:: "LP(A)"%string; "BD*(B)"%string] = None /\
  Binary64.loadMatrices linalg_inv_ref matmul_ref scenario_F scenario_D
    (eye 2) zero_T [:: "LP(A)"%string; "BD*(B)"%string] = None.
Proof.
have zero_raises : linalg_inv_ref zero_T = None.
  exact: linalg_inv_ref_zero_column.
by split; apply: C9_inversion_error_propagates;
   rewrite zero_raises ?andbF.
Defined.

(** [[3, 3], [5, 5]] is singular, yet its inversion finds the second pivot
    [3 - (3 * (1 / 5)) * 5] nonzero in binary64 and raises nothing: the
    function returns a result. *)
Lemma C9_singular_not_detected :
  [/\ (3 * 5 - 3 * 5 = 0)%Z,
      update (multiplier (of_Z 5) (of_Z 3)) (of_Z 5) (of_Z 3)
        = S754_finite true 4503599627370496 (-103),
      isSome (linalg_inv_ref singular_T)
    & isSome (Binary64.loadMatrices linalg_inv_ref matmul_ref
                scenario_F scenario_D singular_T (eye 2)
                [:: "LP(A)"%string; "BD*(B)"%string])].
Proof. by split; vm_compute. Qed.

(** A candidate pair with equal orbital energies whose charge transfer is
    below the threshold: the call returns the header alone, with no error
    and no row for the pair. *)
Lemma C5_below_threshold_dropped :
  [/\ candidate scenario_D 0 1,
      feq (entry degenerate_F 0 0) (entry degenerate_F 1 1),
      fgt (charge_transfer scenario_D 0 1) default_qCT_threshold = false
    & doE2Analysis round_ref pow_ref degenerate_F scenario_D scenario_names
        default_qCT_threshold default_E_threshold = Some [:: titles]].
Proof. by split; vm_compute. Qed.

(** * Further properties of the script *)

(** ** More on binary64 comparisons *)

Lemma flt_trans (x y z : float64) : flt x y -> flt y z -> flt x z.
Proof.
rewrite /flt /SFltb.
case: x => [sx|sx||sx mx ex]; case: y => [sy|sy||sy my ey] //=;
  case: z => [sz|sz||sz mz ez] //=;
  try (by case: sx; case: sy => //; case: sz);
  try (by case: sx => //; case: sy => //; case: sz => //).
rewrite -!/(Pos.compare _ _).
by case: sx; case: sy => //; case: sz => //; compare_cases => //=; lia.
Qed.

Lemma flt_irr (x : float64) : flt x x = false.
Proof.
rewrite /flt /SFltb; case: x => [[]|[]||s m e] //=.
rewrite -!/(Pos.compare _ _) Z.compare_refl Pos.compare_refl.
by case: s.
Qed.

Lemma flt_asym (x y : float64) : flt x y -> flt y x = false.
Proof.
move=> lt_xy; case lt_yx: (flt y x) => //.
by have := flt_trans lt_xy lt_yx; rewrite flt_irr.
Qed.

(** ** Loops that raise, loops that keep an invariant *)

Lemma for_in_raises (S : Type) (body : nat -> S -> option S) (r : seq nat)
    (k : nat) :
  k \in r -> (forall st, body k st = None) ->
  forall st, for_in r body st = None.
Proof.
elim: r => [|i r IH] //=; rewrite in_cons => /orP[/eqP<-|k_r] fails st.
  by rewrite fails.
by case: (body i st) => //= st'; apply: IH.
Qed.

Lemma for_in_invariant (S : Type) (I : S -> Prop)
    (body : nat -> S -> option S) (r : seq nat) :
  (forall i st st', I st -> body i st = Some st' -> I st') ->
  forall st st', I st -> for_in r body st = Some st' -> I st'.
Proof.
move=> step; elim: r => [|i r IH] st st' Ist /=; first by case=> <-.
by case run: (body i st) => [st1|] //=; apply: IH; apply: step run.
Qed.

(** ** doE2Analysis on arbitrary arrays *)

Section Any_input.

Variable round : float64 -> Z -> float64.
Variable pow : float64 -> Z -> float64.
Variables F D : ndarray.
Variable names : option (seq string).
Variables qCT_threshold E_threshold : float64.

Local Notation analyze :=
  (doE2Analysis round pow F D names qCT_threshold E_threshold).

(** X1: with at least two orbitals, an orbital index k < len(Fock_matrix)
    whose diagonal entry is missing from the Fock or the density matrix, or
    whose label is missing from a given list of names, makes the call raise
    (IndexError) instead of returning a shortened table. *)
Theorem X1_missing_entry_raises (k : nat) :
  1 < size F -> k < size F ->
  ~~ [&& isSome (getitem F k k), isSome (getitem D k k)
       & if names is Some l then k < size l else true] ->
  analyze = None.
Proof.
move=> two lt_k missing.
pose j := if k == 0 then 1 else 0.
have neq_kj : (k == j) = false by rewrite /j; case: (k) => [|k'].
have lt_j : j < size F by rewrite /j; case: ifP => _ //; apply: ltn_trans two.
have fails st : visit round pow F D names qCT_threshold k j st = None.
  rewrite /visit neq_kj.
  move: missing.
  case: (getitem F k k) => //= Ekk; case: (getitem F j j) => //= Ejj.
  case: (getitem D k k) => //= Dkk; case: (getitem D j j) => //= Djj.
  by case: (names) => [l|] //; rewrite -leqNgt => /item_none->.
have row st :
  for_in (range (size F)) (visit round pow F D names qCT_threshold k) st
  = None.
  by apply: for_in_raises fails st; rewrite mem_iota add0n.
rewrite /doE2Analysis /scan.
by rewrite (for_in_raises (k := k) _ row) // mem_iota add0n.
Qed.

(** X2: with at most one orbital no element of either matrix and no label
    is read: whatever the density matrix and the labels are, the call
    returns the header row alone. *)
Theorem X2_single_orbital_reads_nothing :
  size F <= 1 -> analyze = Some [:: titles].
Proof. by case: F => [|row [|row' F']]. Qed.

(** X3: whenever the call returns, on arrays of any shape, the table is the
    header row followed by rows made of two labels and four numbers. *)
Theorem X3_table_layout (table : seq (seq cell)) :
  analyze = Some table ->
  exists2 rows, table = titles :: rows & all data_row rows.
Proof.
pose I (st : locals) :=
  interaction st = [::] /\
  exists2 rows, result st = titles :: rows & all data_row rows.
have step i j st st' :
  I st -> visit round pow F D names qCT_threshold i j st = Some st' -> I st'.
  case=> pending [rows res ok]; rewrite /visit.
  case: (i == j); first by case=> <-; split=> //; exists rows.
  case: (getitem F i i) => //= Eii; case: (getitem F j j) => //= Ejj.
  case: (getitem D i i) => //= Dii; case: (getitem D j j) => //= Djj.
  case: (match names with Some _ => _ | None => _ end) => [[ii jj]|] //=.
  rewrite pending res /=.
  case: ifP => _; last by case=> <-; split=> //; exists rows.
  case: (getitem F i j) => //= Eij; case: (getitem D i j) => //= Dij.
  case: ifP => _ [<-]; split=> //=; last by exists rows.
  by eexists; [reflexivity | rewrite all_rcons ok].
rewrite /doE2Analysis /scan; set st0 := Locals _ _ _ _ _ _.
have I0 : I st0 by split=> //; exists [::].
case run: (for_in _ _ st0) => [st'|] //= [<-].
have [|_ //] := for_in_invariant (I := I) _ I0 run.
by move=> i st1 st2 I1; apply: for_in_invariant I1 => j; apply: step.
Qed.

End Any_input.

(** ** Labels *)

Lemma list_ascii_append (s t : string) :
  list_ascii_of_string (String.append s t) =
  list_ascii_of_string s ++ list_ascii_of_string t.
Proof. by elim: s => //= c s ->. Qed.

Lemma digits_of_uint (d : Decimal.uint) :
  all is_digit (list_ascii_of_string (NilEmpty.string_of_uint d)).
Proof. by elim: d => //= d ->. Qed.

Lemma digits_then_other (T : Type) (P : pred T) (s1 s2 : seq T) (x y : T)
    (t1 t2 : seq T) :
  all P s1 -> all P s2 -> ~~ P x -> ~~ P y ->
  s1 ++ x :: t1 = s2 ++ y :: t2 -> s1 = s2.
Proof.
move=> + + not_x not_y.
elim: s1 s2 => [|a s1 IH] [|b s2] //=.
- by move=> _ /andP[Pb _] [eq_xb _]; rewrite eq_xb Pb in not_x.
- by move=> /andP[Pa _] _ [eq_ay _]; rewrite -eq_ay Pa in not_y.
- move=> /andP[_ all1] /andP[_ all2] [-> eq_rest].
  by rewrite (IH s2 all1 all2 eq_rest).
Qed.

Lemma str_inj : injective str.
Proof.
move=> i k eq_str.
have eq_uint : Some (Nat.to_uint i) = Some (Nat.to_uint k).
  by rewrite -!NilEmpty.usu -!/(str _) eq_str.
by case: eq_uint => /(congr1 Nat.of_uint); rewrite !Unsigned.of_to.
Qed.

(** The index printed at the end of a label determines the orbital,
    whatever the names are. *)
Lemma label_index (a b : string) (i k : nat) :
  label a i = label b k -> i = k.
Proof.
move/(congr1 list_ascii_of_string); rewrite /label !list_ascii_append /=.
move/(congr1 rev); rewrite !rev_cat /= => -[eq_rev].
have digits m : all is_digit (rev (list_ascii_of_string (str m))).
  by rewrite all_rev digits_of_uint.
have not_digit : ~~ is_digit "("%char by [].
have := digits_then_other (digits _) (digits _) not_digit not_digit eq_rev.
move/(congr1 rev).
rewrite !revK => /(congr1 string_of_list_ascii).
rewrite !string_of_list_ascii_of_string => /str_inj.
by case.
Qed.

(** ** doE2Analysis on square arrays *)

Lemma size_offdiagonal (n : nat) :
  size [seq p <- row_major n | p.1 != p.2] = n * n.-1.
Proof.
rewrite size_filter /row_major count_flatten -map_comp.
have -> : [seq (count (fun p : nat * nat => p.1 != p.2) \o
                (fun i => [seq (i, j) | j <- range n])) i | i <- range n]
          = [seq n.-1 | i <- range n].
  apply/eq_in_map => i; rewrite mem_iota add0n /= => lt_i.
  rewrite count_map.
  have := count_predC (pred1 i) (range n).
  rewrite (@count_uniq_mem _ (range n) i) ?iota_uniq // mem_iota add0n lt_i.
  rewrite size_iota /= => size_n.
  have -> : count (preim (pair i) (fun p => p.1 != p.2)) (range n)
            = count (predC (pred1 i)) (range n).
    by apply: eq_count => j /=; rewrite eq_sym.
  by rewrite -[X in X.-1]size_n add1n.
have sum_const (s : seq nat) c : sumn [seq c | _ <- s] = size s * c.
  by elim: s => //= _ s ->; rewrite mulSn.
by rewrite sum_const size_iota.
Qed.

Section Shaped_input.

Variable round : float64 -> Z -> float64.
Variable pow : float64 -> Z -> float64.
Variables F D : ndarray.
Variable names : option (seq string).
Variable n : nat.

Hypothesis F_square : square n F.
Hypothesis D_square : square n D.
Hypothesis names_labelled : labelled n names.

Local Notation analyze := (doE2Analysis round pow F D names).

(** X4: no orbital is reported both as a donor and as an acceptor: the
    donor index of a record never equals the acceptor index of a record.
    In particular the table never holds both (i, j) and (j, i). *)
Theorem X4_donors_are_not_acceptors (qCT_threshold E_threshold : float64) :
  exists2 ps : seq (nat * nat),
    analyze qCT_threshold E_threshold =
      Some (titles :: [seq record_of round pow F D names p | p <- ps])
  & forall p q, p \in ps -> q \in ps -> p.1 != q.2.
Proof.
exists [seq p <- row_major n | passes D qCT_threshold p].
  exact: doE2Analysis_closed_form.
move=> [i j] [k l]; rewrite !mem_filter /passes /candidate /=.
case/andP=> /and3P[_ /and3P[donor _ _] _] _.
case/andP=> /and3P[_ /and3P[_ acceptor _] _] _.
apply/eqP=> eq_il; move: acceptor; rewrite -eq_il.
by rewrite (flt_asym donor).
Qed.

(** X5: the third test of line 111, [Djj < Dii], never decides anything:
    a record is emitted for (i, j) exactly when i <> j, Dii > 1.0,
    Djj < 1.0 and qCT exceeds the threshold. *)
Theorem X5_redundant_flow_test (qCT_threshold E_threshold : float64) :
  exists2 ps : seq (nat * nat),
    analyze qCT_threshold E_threshold =
      Some (titles :: [seq record_of round pow F D names p | p <- ps])
  & forall i j,
      ((i, j) \in ps) =
      [&& i < n, j < n, i != j, fgt (entry D i i) f_one,
          flt (entry D j j) f_one
        & fgt (fdiv (fmul (entry D i j) (entry D i j)) (entry D i i))
              qCT_threshold].
Proof.
exists [seq p <- row_major n | passes D qCT_threshold p].
  exact: doE2Analysis_closed_form.
move=> i j.
rewrite mem_filter mem_row_major /passes /candidate /charge_transfer /=.
rewrite andbC -!andbA.
case: (i < n) => //=; case: (j < n) => //=; case: (i != j) => //=.
case donor: (fgt _ f_one) => //=; case acceptor: (flt _ f_one) => //=.
by rewrite (flt_trans acceptor donor).
Qed.

(** X6: the table holds at most N * (N - 1) records. *)
Theorem X6_at_most_all_ordered_pairs (qCT_threshold E_threshold : float64) :
  exists2 rows : seq (seq cell),
    analyze qCT_threshold E_threshold = Some (titles :: rows)
  & size rows <= n * n.-1.
Proof.
exists [seq record_of round pow F D names p
       | p <- row_major n & passes D qCT_threshold p].
  exact: doE2Analysis_closed_form.
rewrite size_map -size_offdiagonal !size_filter.
by apply: sub_count => p /and3P[].
Qed.

(** X7: a threshold that is NaN or +infinity is exceeded by no charge
    transfer: the call returns the header row alone. *)
Theorem X7_unreachable_threshold (qCT_threshold E_threshold : float64) :
  is_nan qCT_threshold || same_float qCT_threshold (S754_infinity false) ->
  analyze qCT_threshold E_threshold = Some [:: titles].
Proof.
move=> top; rewrite (doE2Analysis_closed_form _ _ _ F_square D_square) //.
congr (Some [:: _ & _]).
rewrite (@eq_filter _ _ pred0) ?filter_pred0 // => p.
rewrite /passes /=; case: (_ != _) => //=; case: (candidate _ _ _) => //=.
move: top; rewrite /fgt /flt /SFltb.
case: qCT_threshold => [s|[]||s m e] //= _.
by case: (charge_transfer _ _ _) => [s|[]||s m e].
Qed.

(** X10: the two label cells of a row identify its pair: no two records of
    the table carry the same pair of labels, even when orbital names repeat
    or none are given. *)
Theorem X10_labels_are_a_key (qCT_threshold E_threshold : float64) :
  exists2 rows : seq (seq cell),
    analyze qCT_threshold E_threshold = Some (titles :: rows)
  & uniq [seq take 2 row | row <- rows].
Proof.
exists [seq record_of round pow F D names p
       | p <- row_major n & passes D qCT_threshold p].
  exact: doE2Analysis_closed_form.
have key_inj :
  injective (take 2 \o record_of round pow F D names).
  by move=> [i j] [k l] /= [/label_index-> /label_index->].
rewrite -map_comp (map_inj_uniq key_inj).
apply/filter_uniq/(pairwise_uniq row_major_lt_irr)/pairwise_row_major.
Qed.

End Shaped_input.

(** X8: the Fock matrix enters the table through the energy column only:
    two Fock matrices give tables that agree on which pairs are reported
    and on the first five cells of every row. *)
Theorem X8_fock_matrix_only_in_energy (round pow : float64 -> Z -> float64)
    (F F' D : ndarray) (names : option (seq string)) (n : nat)
    (qCT_threshold E_threshold : float64) :
  square n F -> square n F' -> square n D -> labelled n names ->
  omap (map (take 5))
    (doE2Analysis round pow F D names qCT_threshold E_threshold) =
  omap (map (take 5))
    (doE2Analysis round pow F' D names qCT_threshold E_threshold).
Proof.
move=> F_sq F'_sq D_sq lab.
rewrite (doE2Analysis_closed_form _ _ _ F_sq D_sq lab).
rewrite (doE2Analysis_closed_form _ _ _ F'_sq D_sq lab) /=.
by rewrite -!map_comp.
Qed.

(** X9: the orbital names enter the table through the two label cells
    only: with other names, or none, the same pairs are reported with the
    same four numbers. *)
Theorem X9_labels_only_in_label_cells (round pow : float64 -> Z -> float64)
    (F D : ndarray) (names names' : option (seq string)) (n : nat)
    (qCT_threshold E_threshold : float64) :
  square n F -> square n D -> labelled n names -> labelled n names' ->
  omap (map (drop 2))
    (doE2Analysis round pow F D names qCT_threshold E_threshold) =
  omap (map (drop 2))
    (doE2Analysis round pow F D names' qCT_threshold E_threshold).
Proof.
move=> F_sq D_sq lab lab'.
rewrite (doE2Analysis_closed_form _ _ _ F_sq D_sq lab).
rewrite (doE2Analysis_closed_form _ _ _ F_sq D_sq lab') /=.
by rewrite -!map_comp.
Qed.

(** ** More on loadMatrices *)

Section Basis_extras.

Variable K : fieldType.
Variable n : nat.
Variables Fock_nao sds_nao cplo_2_lho lho_2_nao : 'M[K]_n.
Variable orb_names : n.-tuple string.

Local Open Scope ring_scope.


End Basis_extras.

(** ** The further properties at concrete inputs *)

Lemma X1_short_density :
  doE2Analysis round_ref pow_ref scenario_F short_D scenario_names
    (literal 1 1000) default_E_threshold = None.
Proof.
exact: (@X1_missing_entry_raises round_ref pow_ref scenario_F short_D
          scenario_names (literal 1 1000) default_E_threshold 1 isT isT isT).
Defined.

Lemma X2_empty_density :
  doE2Analysis round_ref pow_ref single_F [::] None default_qCT_threshold
    default_E_threshold = Some [:: titles].
Proof.
exact: (@X2_single_orbital_reads_nothing round_ref pow_ref single_F [::]
          None default_qCT_threshold default_E_threshold isT).
Defined.

Lemma X3_scenario :
  exists2 rows : seq (seq cell),
    scan_scenario (literal 1 1000) = Some (titles :: rows)
  & all data_row rows.
Proof.
have [rows eq_table layout] :=
  @X3_table_layout round_ref pow_ref scenario_F scenario_D scenario_names
    (literal 1 1000) default_E_threshold _ scenario_low_threshold.
by exists rows; rewrite // scenario_low_threshold eq_table.
Defined.

Lemma X4_scenario :
  exists2 ps : seq (nat * nat),
    scan_scenario (literal 1 1000) =
      Some (titles ::
            [seq record_of round_ref pow_ref scenario_F scenario_D
                   scenario_names p | p <- ps])
  & forall p q, p \in ps -> q \in ps -> p.1 != q.2.
Proof.
have shapeF : square 2 scenario_F by [].
have shapeD : square 2 scenario_D by [].
have shapeN : labelled 2 scenario_names by [].
exact: (X4_donors_are_not_acceptors round_ref pow_ref shapeF shapeD shapeN
          (literal 1 1000) default_E_threshold).
Defined.

Lemma X5_scenario :
  exists2 ps : seq (nat * nat),
    scan_scenario (literal 1 1000) =
      Some (titles ::
            [seq record_of round_ref pow_ref scenario_F scenario_D
                   scenario_names p | p <- ps])
  & ((0, 1) \in ps) && ((1, 0) \notin ps).
Proof.
have shapeF : square 2 scenario_F by [].
have shapeD : square 2 scenario_D by [].
have shapeN : labelled 2 scenario_names by [].
have [ps run mem] :=
  X5_redundant_flow_test round_ref pow_ref shapeF shapeD shapeN
    (literal 1 1000) default_E_threshold.
by exists ps; rewrite ?mem.
Defined.

Lemma X6_scenario :
  exists2 rows : seq (seq cell),
    scan_scenario (literal 1 1000) = Some (titles :: rows) & size rows <= 2.
Proof.
have shapeF : square 2 scenario_F by [].
have shapeD : square 2 scenario_D by [].
have shapeN : labelled 2 scenario_names by [].
exact: (X6_at_most_all_ordered_pairs round_ref pow_ref shapeF shapeD shapeN
          (literal 1 1000) default_E_threshold).
Defined.

Lemma X7_nan_threshold :
  scan_scenario S754_nan = Some [:: titles].
Proof.
have shapeF : square 2 scenario_F by [].
have shapeD : square 2 scenario_D by [].
have shapeN : labelled 2 scenario_names by [].
exact: (@X7_unreachable_threshold round_ref pow_ref scenario_F scenario_D
          scenario_names 2 shapeF shapeD shapeN S754_nan
          default_E_threshold isT).
Defined.

Lemma X8_scenario :
  omap (map (take 5)) (scan_scenario (literal 1 1000)) =
  omap (map (take 5))
    (doE2Analysis round_ref pow_ref degenerate_F scenario_D scenario_names
       (literal 1 1000) default_E_threshold).
Proof.
have shapeF : square 2 scenario_F by [].
have shapeF' : square 2 degenerate_F by [].
have shapeD : square 2 scenario_D by [].
have shapeN : labelled 2 scenario_names by [].
exact: (X8_fock_matrix_only_in_energy round_ref pow_ref (literal 1 1000)
          default_E_threshold shapeF shapeF' shapeD shapeN).
Defined.

Lemma X9_scenario :
  omap (map (drop 2)) (scan_scenario (literal 1 1000)) =
  omap (map (drop 2))
    (doE2Analysis round_ref pow_ref scenario_F scenario_D None
       (literal 1 1000) default_E_threshold).
Proof.
have shapeF : square 2 scenario_F by [].
have shapeD : square 2 scenario_D by [].
have shapeN : labelled 2 scenario_names by [].
have shapeN' : labelled 2 None by [].
exact: (X9_labels_only_in_label_cells round_ref pow_ref (literal 1 1000)
          default_E_threshold shapeF shapeD shapeN shapeN').
Defined.

Lemma X10_three_orbitals :
  exists2 rows : seq (seq cell),
    doE2Analysis round_ref pow_ref three_F three_D None
      default_qCT_threshold default_E_threshold = Some (titles :: rows)
  & uniq [seq take 2 row | row <- rows].
Proof.
have shapeF : square 3 three_F by [].
have shapeD : square 3 three_D by [].
have shapeN : labelled 3 None by [].
exact: (X10_labels_are_a_key round_ref pow_ref shapeF shapeD shapeN
          default_qCT_threshold default_E_threshold).
Defined.
